(** * Tracing adapters of dd-trace-go: the rueidis hook and the gRPC AppSec tags

    A shallow embedding of two instrumentation packages:

    - [contrib/rueian/rueidis]: the hook that wraps every command of a
      rueidis client in a span ([WrapClient], [start], [end], [firstError],
      [resourceName], [completedToStr], ...);
    - [internal/appsec/dyngo/instrumentation/grpcsec]: [SetSecurityEventTags].

    Go strings are byte strings ([string]); Go's [int] is [Z]; a Go [error]
    interface value is [option E], [None] being [nil]; a Go map is a [gmap];
    calls into the tracer are recorded in an explicit tracer state that the
    hook threads through a small state monad. What the packages take from
    outside (the client library, the constants of [ddtrace/ext], the
    configuration defaults) is a class of parameters.

    The definitions come first, package by package; the facts follow. *)

From Stdlib Require Import ZArith Ascii String DecimalString.
From Corelib Require Import PrimFloat.
From stdpp Require Import base option list strings gmap fin_maps.

Local Open Scope Z_scope.

(** ** Go's [strings] and [strconv] functions used by the two packages *)

Module strings.

(** [strings.IndexByte(s, c)]: the index of the first [c] in [s], or -1. *)
Fixpoint index_from (i : Z) (s : string) (c : ascii) : Z :=
  match s with
  | EmptyString => -1
  | String b s' => if Ascii.eqb b c then i else index_from (i + 1) s' c
  end.

Definition IndexByte (s : string) (c : ascii) : Z := index_from 0 s c.

(** [strings.Join(elems, sep)]. *)
Fixpoint Join (elems : list string) (sep : string) : string :=
  match elems with
  | [] => EmptyString
  | [a] => a
  | a :: rest => a +:+ sep +:+ Join rest sep
  end.

(** The slice expression [s[:i]] for [0 <= i <= len(s)]. *)
Definition slice_to (s : string) (i : Z) : string :=
  String.substring 0 (Z.to_nat i) s.

(** [s] ends with [suffix] (what [strings.HasSuffix] decides). *)
Definition HasSuffix (s suffix : string) : Prop :=
  ∃ pre, s = pre +:+ suffix.

(** No byte of [s] is [c]. *)
Fixpoint lacks (c : ascii) (s : string) : bool :=
  match s with
  | EmptyString => true
  | String b s' => negb (Ascii.eqb b c) && lacks c s'
  end.

End strings.

Module strconv.

(** [strconv.Itoa(i)]: the decimal rendering of [i]. *)
Definition Itoa (i : Z) : string := NilZero.string_of_int (Z.to_int i).

End strconv.

(** ** The tracing API, as far as the two packages use it *)

Module ddtrace.

(** A tag value ([interface{}] in Go): the packages set strings and one
    [float64]. *)
Inductive TagValue : Type :=
| VString (s : string)
| VFloat (f : float).

(** Modelled from the spec: the tracer's start-span options ("service name
    from hook parameters, resource name as computed, a size tag, ..."); the
    package [ddtrace/tracer] that declares them is not among the sources. *)
Inductive StartSpanOption : Type :=
| SpanType (name : string)
| ServiceName (name : string)
| ResourceName (name : string)
| Tag (k : string) (value : TagValue).

(** Modelled from the spec: a span "supports setting string/numeric tags by
    key"; the tags a list of start options leaves on the span, a later option
    overwriting an earlier one with the same key. *)
Definition set_option (tags : gmap string TagValue) (o : StartSpanOption)
  : gmap string TagValue :=
  match o with
  | Tag k value => <[k := value]> tags
  | _ => tags
  end.

Definition tags_of (opts : list StartSpanOption) : gmap string TagValue :=
  foldl set_option ∅ opts.

(** The constants of [ddtrace/ext] that the hook uses: the package is not
    among the sources, so they are parameters. *)
Class Ext : Type := {
  SpanTypeRedis : string;
  Component : string;
  SpanKind : string;
  SpanKindClient : string;
  DBSystem : string;
  DBSystemRedis : string;
  EventSampleRate : string
}.

(** [context.Context], reduced to the span it carries. *)
Record Context : Type := { ctx_span : option nat }.

Section calls.
Context {E : Type}.

(** Modelled from the spec: "a terminal finish operation that may carry an
    error". *)
Inductive FinishOption : Type :=
| WithError (err : option E).

(** The calls made to the tracer, in order. A span handle is [Some id] for a
    started span and [None] for the no-op span of a context without one. *)
Inductive Call : Type :=
| StartSpan (id : nat) (parent : option nat) (operationName : string)
    (opts : list StartSpanOption)
| Finish (span : option nat) (opts : list FinishOption).

Definition Tracer : Type := list Call.

(** State passing over the tracer. *)
Definition M (A : Type) : Type := Tracer → A * Tracer.

#[global] Instance M_ret : MRet M := λ A a t, (a, t).

#[global] Instance M_bind : MBind M :=
  λ A B k m t, let (a, t') := m t in k a t'.

(** Modelled from the spec: "start-span-with-options" and
    "get-span-from-context". The new span gets the next free identifier and is
    the span of the returned context. *)
Definition StartSpanFromContext (ctx : Context) (operationName : string)
    (opts : list StartSpanOption) : M (nat * Context) :=
  λ t, let id := length t in
       ((id, {| ctx_span := Some id |}),
        t ++ [StartSpan id (ctx_span ctx) operationName opts]).

Definition SpanFromContext (ctx : Context) : option nat * bool :=
  match ctx_span ctx with
  | Some id => (Some id, true)
  | None => (None, false)
  end.

(** Modelled from the spec: "finish-with-optional-error". *)
Definition span_Finish (span : option nat) (opts : list FinishOption) : M unit :=
  λ t, (tt, t ++ [Finish span opts]).

(** The calls a computation adds to the tracer state [t]. *)
Definition new_calls {A} (m : M A) (t : Tracer) : list Call :=
  drop (length t) (snd (m t)).

Definition is_start (c : Call) : bool :=
  match c with StartSpan _ _ _ _ => true | Finish _ _ => false end.

Definition is_finish (c : Call) : bool :=
  match c with StartSpan _ _ _ _ => false | Finish _ _ => true end.

End calls.

Arguments FinishOption : clear implicits.
Arguments Call : clear implicits.
Arguments Tracer : clear implicits.
Arguments M : clear implicits.

End ddtrace.

(** ** Package [rueidis]: the tracing hook *)

Module rueidis.
Import ddtrace.

(** [rueidishook.Completed], [rueidishook.Cacheable] and
    [rueidis.CacheableTTL]: commands, each a list of tokens. *)
Record Completed : Type := { Commands : list string }.
Record Cacheable : Type := { Cacheable_Commands : list string }.
Record CacheableTTL : Type := { Cmd : Cacheable; TTL : Z }.
Record PubSubMessage : Type := { Pattern : string; Channel : string; Message : string }.

(** The errors of the client library, taken as given: the values an [error]
    can hold besides [nil], which Go compares with [==]; [rueidis.Nil], the
    sentinel of a Redis nil reply; and [rueidis.IsRedisNil]. *)
Class Errors : Type := {
  E : Type;
  E_eq_dec :: EqDecision E;
  Nil : E;
  IsRedisNil : option E → bool
}.

(** *** The formatting helpers *)

(** The two-byte separator written after every command: a colon and a
    line feed. *)
Definition cmd_sep : string := String ":" (String "010" EmptyString).

Definition space : ascii := " "%char.

Definition resourceName (op : string) : string :=
  let spaceIndex := strings.IndexByte op space in
  if 0 <? spaceIndex then strings.slice_to op spaceIndex else op.

Definition completedToStr (cmds : list Completed) : string :=
  foldl (λ builder command,
           builder +:+ (strings.Join (Commands command) " " +:+ cmd_sep))
        EmptyString cmds.

Definition cacheableToStr (cmds : list Cacheable) : string :=
  foldl (λ builder command,
           builder +:+ (strings.Join (Cacheable_Commands command) " " +:+ cmd_sep))
        EmptyString cmds.

Definition cacheableTtlToStr (cmds : list CacheableTTL) : string :=
  foldl (λ builder command,
           builder +:+ (strings.Join (Cacheable_Commands (Cmd command)) " " +:+ cmd_sep))
        EmptyString cmds.

(** The [range] loop runs over the slice as it is when the loop starts and
    appends every element to it; the first value of [additionalTags] is
    overwritten. *)
Definition additionalTagOptions (addrs : list string) : list StartSpanOption :=
  let addrs := foldl (λ addrs addr, addrs ++ [addr]) addrs addrs in
  [Tag "addrs" (VString (strings.Join addrs ", "))].

Definition len {A} (l : list A) : Z := Z.of_nat (length l).

(** *** The hook *)

Section hook.
Context {errors : Errors} {ext : Ext}.
Local Abbreviation error := (option E).

(** [rueidis.RedisResult], as far as the hook looks at it. *)
Record RedisResult : Type := { Error : error }.

(** The wrapped [rueidis.Client]: an external collaborator, a function of the
    arguments of each call. *)
Record Client : Type := {
  client_Do : Context → Completed → RedisResult;
  client_DoMulti : Context → list Completed → list RedisResult;
  client_DoCache : Context → Cacheable → Z → RedisResult;
  client_DoMultiCache : Context → list CacheableTTL → list RedisResult;
  client_Receive : Context → Completed → (PubSubMessage → unit) → error
}.

(** [clientConfig]: its declaration is not among the sources; these are the
    fields the hook reads. *)
Record clientConfig : Type := {
  serviceName : string;
  skipRaw : bool;
  analyticsRate : float;
  errCheck : error → bool
}.

Definition ClientOption : Type := clientConfig → clientConfig.

Record params : Type := {
  config : clientConfig;
  additionalTags : list StartSpanOption
}.

Record datadogHook : Type := { hook_params : params }.

(** [defaults] is not among the sources: [defaults_cfg] is the configuration
    it leaves in a new [clientConfig]. *)
Class Defaults : Type := { defaults_cfg : clientConfig }.
Context {defaults : Defaults}.

(** [rueidishook.WithHook] puts the hook in front of the client; the hooked
    client is the hook together with the client each method is given. *)
Definition WrapClient (addrs : list string) (opts : list ClientOption) : datadogHook :=
  let cfg := foldl (λ cfg fn, fn cfg) defaults_cfg opts in
  {| hook_params := {| additionalTags := additionalTagOptions addrs; config := cfg |} |}.

(** The options [start] passes to the tracer. *)
Definition start_opts (h : datadogHook) (op : string) (size : Z) : list StartSpanOption :=
  let p := hook_params h in
  let opts :=
    [ SpanType SpanTypeRedis;
      ServiceName (serviceName (config p));
      ResourceName (resourceName op);
      Tag "redis.args_length" (VString (strconv.Itoa size));
      Tag Component (VString "rueidis");
      Tag SpanKind (VString SpanKindClient);
      Tag DBSystem (VString DBSystemRedis) ] in
  let opts :=
    if negb (skipRaw (config p))
    then opts ++ [Tag "redis.raw_command" (VString op)] else opts in
  let opts := opts ++ additionalTags (hook_params h) in
  if negb (is_nan (analyticsRate (config p)))
  then opts ++ [Tag EventSampleRate (VFloat (analyticsRate (config p)))] else opts.

Definition start (h : datadogHook) (ctx : Context) (op : string) (size : Z)
  : M E (Context * error) :=
  '(_, ctx) ← StartSpanFromContext ctx "redis.command" (start_opts h op size);
  mret (ctx, None).

(** The options [end] passes to [Finish]. *)
Definition finish_opts (h : datadogHook) (errRedis : error) : list (FinishOption E) :=
  if bool_decide (errRedis ≠ Some Nil) && errCheck (config (hook_params h)) errRedis
  then [WithError errRedis] else [].

Definition end_ (h : datadogHook) (ctx : Context) (errRedis : error) : M E unit :=
  let '(span, _) := SpanFromContext ctx in
  span_Finish span (finish_opts h errRedis).

Fixpoint firstError (s : list RedisResult) : error :=
  match s with
  | [] => None
  | result :: s' =>
      let err := Error result in
      if bool_decide (err ≠ None) && negb (IsRedisNil err)
      then err else firstError s'
  end.

Definition Do (h : datadogHook) (client : Client) (ctx : Context) (cmd : Completed)
  : M E RedisResult :=
  '(ctx, _) ← start h ctx (completedToStr [cmd]) (len (Commands cmd));
  let resp := client_Do client ctx cmd in
  _ ← end_ h ctx (Error resp);
  mret resp.

Definition DoMulti (h : datadogHook) (client : Client) (ctx : Context)
    (multi : list Completed) : M E (list RedisResult) :=
  '(ctx, _) ← start h ctx (completedToStr multi) (len multi);
  let resps := client_DoMulti client ctx multi in
  _ ← end_ h ctx (firstError resps);
  mret resps.

Definition DoCache (h : datadogHook) (client : Client) (ctx : Context)
    (cmd : Cacheable) (ttl : Z) : M E RedisResult :=
  '(ctx, _) ← start h ctx (cacheableToStr [cmd]) (len (Cacheable_Commands cmd));
  let resp := client_DoCache client ctx cmd ttl in
  _ ← end_ h ctx (Error resp);
  mret resp.

Definition DoMultiCache (h : datadogHook) (client : Client) (ctx : Context)
    (multi : list CacheableTTL) : M E (list RedisResult) :=
  '(ctx, _) ← start h ctx (cacheableTtlToStr multi) (len multi);
  let resps := client_DoMultiCache client ctx multi in
  _ ← end_ h ctx (firstError resps);
  mret resps.

Definition Receive (h : datadogHook) (client : Client) (ctx : Context)
    (subscribe : Completed) (fn : PubSubMessage → unit) : M E error :=
  '(ctx, _) ← start h ctx (completedToStr [subscribe]) (len (Commands subscribe));
  let err := client_Receive client ctx subscribe fn in
  _ ← end_ h ctx err;
  mret err.

(** One call through the hook, whichever of its five methods it is. *)
Inductive HookCall : Type :=
| CallDo (cmd : Completed)
| CallDoMulti (multi : list Completed)
| CallDoCache (cmd : Cacheable) (ttl : Z)
| CallDoMultiCache (multi : list CacheableTTL)
| CallReceive (subscribe : Completed) (fn : PubSubMessage → unit).

Definition invoke (h : datadogHook) (client : Client) (ctx : Context)
    (c : HookCall) : M E unit :=
  match c with
  | CallDo cmd => _ ← Do h client ctx cmd; mret tt
  | CallDoMulti multi => _ ← DoMulti h client ctx multi; mret tt
  | CallDoCache cmd ttl => _ ← DoCache h client ctx cmd ttl; mret tt
  | CallDoMultiCache multi => _ ← DoMultiCache h client ctx multi; mret tt
  | CallReceive subscribe fn => _ ← Receive h client ctx subscribe fn; mret tt
  end.

(** *** What the facts below are stated with *)

(** The computation [m], run from the tracer state [t] with the context
    [ctx], starts a span with [sopts], returns [a] and finishes that span
    with [fopts], and calls the tracer for nothing else. *)
Definition traced {A} (m : M E A) (ctx : Context) (t : Tracer E) (a : A)
    (sopts : list StartSpanOption) (fopts : list (FinishOption E)) : Prop :=
  m t = (a, t ++ [StartSpan (length t) (ctx_span ctx) "redis.command" sopts;
                  Finish (Some (length t)) fopts]).

(** The operation string and the size each method hands to [start]. *)
Definition call_op (c : HookCall) : string :=
  match c with
  | CallDo cmd => completedToStr [cmd]
  | CallDoMulti multi => completedToStr multi
  | CallDoCache cmd _ => cacheableToStr [cmd]
  | CallDoMultiCache multi => cacheableTtlToStr multi
  | CallReceive subscribe _ => completedToStr [subscribe]
  end.

Definition call_size (c : HookCall) : Z :=
  match c with
  | CallDo cmd => len (Commands cmd)
  | CallDoMulti multi => len multi
  | CallDoCache cmd _ => len (Cacheable_Commands cmd)
  | CallDoMultiCache multi => len multi
  | CallReceive subscribe _ => len (Commands subscribe)
  end.

Definition count (p : Call E → bool) (calls : list (Call E)) : nat :=
  length (List.filter p calls).

(** None of the four [ext] tag keys is [k]. *)
Definition ext_keys_avoid (k : string) : Prop :=
  Component ≠ k ∧ SpanKind ≠ k ∧ DBSystem ≠ k ∧ EventSampleRate ≠ k.

(** The keys of the tags [start] sets. *)
Definition start_keys : list string :=
  ["redis.args_length"; Component; SpanKind; DBSystem; "redis.raw_command";
   "addrs"; EventSampleRate].

(** How often the span [id] is started and finished in the calls [t]. *)
Definition starts_of (id : nat) (t : Tracer E) : nat :=
  count (λ c, match c with
              | StartSpan j _ _ _ => bool_decide (j = id)
              | Finish _ _ => false
              end) t.

Definition finishes_of (id : nat) (t : Tracer E) : nat :=
  count (λ c, match c with
              | Finish (Some j) _ => bool_decide (j = id)
              | _ => false
              end) t.

(** Every span is started at most once and finished as often as it is
    started, and no span has an identifier the tracer has yet to give. *)
Definition spans_closed (t : Tracer E) : Prop :=
  ∀ id, (starts_of id t ≤ 1)%nat
        ∧ finishes_of id t = starts_of id t
        ∧ ((length t ≤ id)%nat → starts_of id t = 0%nat).

(** A caller going through the hook several times, one call after the
    other, each with its own context. *)
Fixpoint invoke_all (h : datadogHook) (client : Client)
    (calls : list (Context * HookCall)) : M E unit :=
  match calls with
  | [] => mret tt
  | (ctx, c) :: calls => _ ← invoke h client ctx c; invoke_all h client calls
  end.

End hook.

(** *** One instance of the parameters

    Errors are their messages, [rueidis.Nil] is one of them and the only
    Redis nil reply; tag keys and values are in the style of [ddtrace/ext];
    the default configuration keeps the raw command, has no analytics rate
    and classifies every error other than [nil] as an error. *)

Definition ex_errors : Errors :=
  {| E := string;
     E_eq_dec := _;
     Nil := "redis nil message";
     IsRedisNil := λ err : option string,
                     bool_decide (err = Some "redis nil message") |}.

Definition ex_ext : Ext :=
  {| SpanTypeRedis := "redis";
     Component := "component";
     SpanKind := "span.kind";
     SpanKindClient := "client";
     DBSystem := "db.system";
     DBSystemRedis := "redis";
     EventSampleRate := "_dd1.sr.eausr" |}.

Definition ex_cfg : clientConfig (errors := ex_errors) :=
  {| serviceName := "redis.client";
     skipRaw := false;
     analyticsRate := nan;
     errCheck := λ err, bool_decide (err ≠ None) |}.

Definition ex_defaults : Defaults (errors := ex_errors) :=
  {| defaults_cfg := ex_cfg |}.

(** The option that turns raw-command redaction on. *)
Definition ex_skip_raw : ClientOption (errors := ex_errors) :=
  λ cfg, {| serviceName := serviceName cfg; skipRaw := true;
            analyticsRate := analyticsRate cfg; errCheck := errCheck cfg |}.

Definition ex_result (err : option string) : RedisResult (errors := ex_errors) :=
  @Build_RedisResult ex_errors err.

Definition res_nil : RedisResult := ex_result (Some "redis nil message").
Definition res_err : RedisResult := ex_result (Some "ERR wrong type").
Definition res_ok : RedisResult := ex_result None.

(** A client that answers every batch with a fixed list of results and
    everything else without an error. *)
Definition ex_client (resps : list (RedisResult (errors := ex_errors))) : Client :=
  {| client_Do := λ _ _, res_ok;
     client_DoMulti := λ _ _, resps;
     client_DoCache := λ _ _ _, res_ok;
     client_DoMultiCache := λ _ _, resps;
     client_Receive := λ _ _ _, None |}.

Definition ex_hook (addrs : list string) (opts : list ClientOption)
  : datadogHook (errors := ex_errors) :=
  WrapClient (defaults := ex_defaults) addrs opts.

Definition GET_k : Completed := {| Commands := ["GET"; "k"] |}.
Definition PING : Completed := {| Commands := ["PING"] |}.
Definition CLIENT_LIST : Completed := {| Commands := ["CLIENT LIST"] |}.

(** The cacheable command GET k, to be kept for a minute (in nanoseconds). *)
Definition GET_k_ttl : CacheableTTL :=
  {| Cmd := {| Cacheable_Commands := ["GET"; "k"] |}; TTL := 60000000000 |}.

(** A second instance of the errors: every message that begins with
    "redis nil" is a Redis nil reply, and [rueidis.Nil] is one of them. *)
Definition ex_errors_nil_class : Errors :=
  {| E := string;
     E_eq_dec := _;
     Nil := "redis nil message";
     IsRedisNil := λ err : option string,
                     match err with
                     | Some msg => String.prefix "redis nil" msg
                     | None => false
                     end |}.

Definition ex_cfg_nil_class : clientConfig (errors := ex_errors_nil_class) :=
  {| serviceName := "redis.client";
     skipRaw := false;
     analyticsRate := nan;
     errCheck := λ err, bool_decide (err ≠ None) |}.

Definition ex_hook_nil_class : datadogHook (errors := ex_errors_nil_class) :=
  {| hook_params := {| config := ex_cfg_nil_class; additionalTags := [] |} |}.

(** A result with a Redis nil reply that is not [rueidis.Nil]. *)
Definition res_other_nil : RedisResult (errors := ex_errors_nil_class) :=
  @Build_RedisResult ex_errors_nil_class (Some "redis nil of another kind").

Definition ex_client_nil_class : Client (errors := ex_errors_nil_class) :=
  {| client_Do := λ _ _, res_other_nil;
     client_DoMulti := λ _ _, [res_other_nil];
     client_DoCache := λ _ _ _, res_other_nil;
     client_DoMultiCache := λ _ _, [res_other_nil];
     client_Receive := λ _ _ _, None |}.

End rueidis.

(** ** Package [grpcsec]: the AppSec tags of a gRPC span *)

Module grpcsec.
Import ddtrace.

(** [json.RawMessage], a byte slice. *)
Definition RawMessage : Type := list Byte.byte.

(** The namespace of the metadata tags. *)
Definition metadata_prefix : string := "grpc.metadata.".

(** What the package takes from outside. The values an [error] can hold
    besides [nil], with their [Error()] message. Then
    [instrumentation.SetEventSpanTags], which is not among the sources: from
    the tags of the span and the events it gives the tags it leaves on the
    span and the error it returns. Last, the external rules of header
    normalization: the normalized name of a header and the joined form of its
    values. *)
Class Externals : Type := {
  E : Type;
  ErrorString : E → string;
  SetEventSpanTags :
    gmap string TagValue → list RawMessage → gmap string TagValue * option E;
  normalize : string → string;
  join : list string → string
}.

Section tags.
Context {externals : Externals}.

(** Modelled from the spec: [httpsec.NormalizeHTTPHeaders], which is not
    among the sources. "For every header in the metadata map, normalize the
    header name per an external normalization rule", the value "being the
    joined/serialized form of that header's value list". Of two headers with
    the same normalized name one value is kept. *)
Definition NormalizeHTTPHeaders (md : gmap string (list string)) : gmap string string :=
  list_to_map ((λ hv, (normalize hv.1, join hv.2)) <$> map_to_list md).

(** [span.SetTag(key, value)] on a span given by its tags. *)
Definition SetTag (span : gmap string TagValue) (key : string) (value : TagValue)
  : gmap string TagValue :=
  <[key := value]> span.

Definition setSecurityEventTags (span : gmap string TagValue)
    (events : list RawMessage) (md : gmap string (list string))
  : gmap string TagValue * option E :=
  match SetEventSpanTags span events with
  | (span, Some err) => (span, Some err)
  | (span, None) =>
      (map_fold (λ h v span, SetTag span (metadata_prefix +:+ h) (VString v))
                span (NormalizeHTTPHeaders md),
       None)
  end.

(** [SetSecurityEventTags] returns nothing: it leaves tags on the span and
    lines in the log. *)
Definition SetSecurityEventTags (span : gmap string TagValue)
    (events : list RawMessage) (md : gmap string (list string))
    (log : list string) : gmap string TagValue * list string :=
  match setSecurityEventTags span events md with
  | (span, Some err) => (span, log ++ ["appsec: " +:+ ErrorString err])
  | (span, None) => (span, log)
  end.

(** The loop of [setSecurityEventTags], run over the normalized headers in
    the order of [entries]: Go ranges over a map in an order that it does
    not specify. *)
Definition set_metadata_tags (span : gmap string TagValue)
    (entries : list (string * string)) : gmap string TagValue :=
  foldl (λ span hv, SetTag span (metadata_prefix +:+ hv.1) (VString hv.2))
        span entries.

End tags.

(** *** Two instances of the parameters

    Errors are their messages, header names are normalized by a rule that
    keeps them, the values of a header are joined by commas. In one instance
    the encoding of the events sets its tag, in the other it fails. *)

Definition ex_join (vs : list string) : string := strings.Join vs ",".

Definition ex_encoding : Externals :=
  {| E := string;
     ErrorString := id;
     SetEventSpanTags :=
       λ span events, (<["_dd.appsec.json" := VString "{}"]> span, None);
     normalize := id;
     join := ex_join |}.

Definition ex_failing : Externals :=
  {| E := string;
     ErrorString := id;
     SetEventSpanTags :=
       λ span events,
         (span, Some "unexpected error while serializing the appsec event span tag");
     normalize := id;
     join := ex_join |}.

Definition ex_md : gmap string (list string) :=
  {[ "authorization" := ["Bearer x"] ]}.

(** Metadata with two headers, and its normalized headers in one order. *)
Definition ex_md_two : gmap string (list string) :=
  {[ "authorization" := ["Bearer x"]; "user-agent" := ["grpc"; "go"] ]}.

Definition ex_entries_two : list (string * string) :=
  [("user-agent", "grpc,go"); ("authorization", "Bearer x")].

End grpcsec.
(** * The facts

    ** Go's string functions *)

Lemma append_cons (a : ascii) (s t : string) :
  String a s +:+ t = String a (s +:+ t).
Proof. reflexivity. Qed.

Lemma append_nil_r (s : string) : s +:+ EmptyString = s.
Proof. induction s as [|a s IH]; [done|]. by rewrite append_cons, IH. Qed.

Lemma append_assoc (a b c : string) : (a +:+ b) +:+ c = a +:+ (b +:+ c).
Proof. induction a as [|x a IH]; [done|]. by rewrite !append_cons, IH. Qed.

Lemma length_append_l (s t : string) :
  (String.length s ≤ String.length (s +:+ t))%nat.
Proof.
  induction s as [|b s IH]; [simpl; lia|].
  rewrite append_cons. simpl. lia.
Qed.

Lemma lacks_append (c : ascii) (s t : string) :
  strings.lacks c (s +:+ t) = strings.lacks c s && strings.lacks c t.
Proof.
  induction s as [|b s IH]; [done|].
  rewrite append_cons. simpl. rewrite IH. by destruct (Ascii.eqb b c).
Qed.

Lemma index_from_lacks (c : ascii) (s : string) (i : Z) :
  strings.lacks c s = true → strings.index_from i s c = -1.
Proof.
  revert i. induction s as [|b s IH]; intros i; simpl; [done|].
  destruct (Ascii.eqb b c); simpl; [done|]. apply IH.
Qed.

Lemma index_from_first (c : ascii) (pre post : string) (i : Z) :
  strings.lacks c pre = true →
  strings.index_from i (pre +:+ String c post) c = i + Z.of_nat (String.length pre).
Proof.
  revert i. induction pre as [|b pre IH]; intros i.
  - intros _. change (EmptyString +:+ String c post) with (String c post).
    simpl. rewrite Ascii.eqb_refl. lia.
  - rewrite append_cons. simpl.
    destruct (Ascii.eqb b c); simpl; [done|].
    intros H. rewrite IH by done. lia.
Qed.

Lemma index_from_none_lacks (c : ascii) (s : string) (i : Z) :
  0 <= i → strings.index_from i s c = -1 → strings.lacks c s = true.
Proof.
  revert i. induction s as [|b s IH]; intros i Hi; simpl; [done|].
  destruct (Ascii.eqb b c); simpl; [lia|]. apply IH. lia.
Qed.

Lemma index_from_found_app (c : ascii) (s t : string) (i : Z) :
  strings.index_from i s c ≠ -1 →
  strings.index_from i (s +:+ t) c = strings.index_from i s c.
Proof.
  revert i. induction s as [|b s IH]; intros i; [done|].
  rewrite append_cons. simpl. destruct (Ascii.eqb b c); [done|]. apply IH.
Qed.

Lemma slice_to_prefix (pre rest : string) :
  strings.slice_to (pre +:+ rest) (Z.of_nat (String.length pre)) = pre.
Proof.
  unfold strings.slice_to. rewrite Nat2Z.id.
  induction pre as [|b pre IH].
  - by destruct rest.
  - rewrite append_cons. simpl. by rewrite IH.
Qed.

Lemma foldl_snoc_all {A} (l0 l : list A) :
  foldl (λ acc a, acc ++ [a]) l0 l = l0 ++ l.
Proof.
  revert l0. induction l as [|a l IH]; intros l0; simpl.
  - by rewrite app_nil_r.
  - by rewrite IH, <- app_assoc.
Qed.

Lemma foldl_builder {A} (f : A → string) (b : string) (l : list A) :
  foldl (λ builder a, builder +:+ f a) b l
  = b +:+ foldr (λ a rest, f a +:+ rest) EmptyString l.
Proof.
  revert b. induction l as [|a l IH]; intros b; simpl.
  - by rewrite append_nil_r.
  - by rewrite IH, append_assoc.
Qed.

Lemma foldl_builder_snoc {A} (f : A → string) (b : string) (l : list A) (a : A) :
  foldl (λ builder a, builder +:+ f a) b (l ++ [a])
  = foldl (λ builder a, builder +:+ f a) b l +:+ f a.
Proof. by rewrite foldl_app. Qed.

Example Itoa_12 : strconv.Itoa 12 = "12"%string.
Proof. reflexivity. Qed.

(** ** Package [rueidis] *)

Module rueidis_facts.
Import ddtrace rueidis.

(** *** [resourceName] *)

Lemma resourceName_no_space (op : string) :
  strings.lacks space op = true → resourceName op = op.
Proof.
  intros H. unfold resourceName, strings.IndexByte.
  by rewrite index_from_lacks.
Qed.

Lemma resourceName_before_space (pre post : string) :
  strings.lacks space pre = true →
  resourceName (pre +:+ String space post)
  = if decide (pre = EmptyString) then pre +:+ String space post else pre.
Proof.
  intros H. unfold resourceName, strings.IndexByte.
  rewrite index_from_first by done. rewrite Z.add_0_l.
  destruct pre as [|b pre]; [done|].
  rewrite decide_False by done.
  replace (0 <? Z.of_nat (String.length (String b pre))) with true
    by (symmetry; apply Z.ltb_lt; simpl; lia).
  apply slice_to_prefix.
Qed.

Example resourceName_get : resourceName "GET k" = "GET"%string.
Proof. reflexivity. Qed.

(** C3, as the code has it: an operation string without a space is its own
    resource name; when the first space of the operation string comes after
    at least one other byte, the resource name is the part before that space;
    when the operation string begins with a space, the resource name is the
    whole operation string. *)
Theorem resourceName_first_space (op : string) :
  (strings.lacks space op = true → resourceName op = op) ∧
  (∀ pre post, strings.lacks space pre = true →
     op = pre +:+ String space post →
     resourceName op = if decide (pre = EmptyString) then op else pre).
Proof.
  split; [apply resourceName_no_space|].
  intros pre post Hpre ->. by apply resourceName_before_space.
Qed.

Lemma resourceName_first_space_witness :
  resourceName "PING" = "PING" ∧ resourceName "GET k" = "GET"
  ∧ resourceName " k" = " k".
Proof.
  split; [|split].
  - apply (proj1 (resourceName_first_space "PING")). reflexivity.
  - apply (proj2 (resourceName_first_space "GET k") "GET" "k"); reflexivity.
  - apply (proj2 (resourceName_first_space " k") "" "k"); reflexivity.
Defined.

(** C3 as the spec words it fails for an operation string that begins with a
    space: the part before the first space is empty, the resource name is the
    whole string. *)
Lemma resourceName_leading_space :
  strings.IndexByte " GET" space = 0
  ∧ strings.slice_to " GET" (strings.IndexByte " GET" space) = ""
  ∧ resourceName " GET" = " GET"
  ∧ resourceName " GET" ≠ strings.slice_to " GET" (strings.IndexByte " GET" space).
Proof. split; [|split; [|split]]; [reflexivity..|by vm_compute]. Qed.

(** *** [completedToStr] *)

Lemma completedToStr_foldr (cmds : list Completed) :
  completedToStr cmds
  = foldr (λ command rest,
             (strings.Join (Commands command) " " +:+ cmd_sep) +:+ rest)
          EmptyString cmds.
Proof. unfold completedToStr. by rewrite foldl_builder. Qed.

Lemma completedToStr_suffix (cmds : list Completed) :
  cmds ≠ [] → strings.HasSuffix (completedToStr cmds) cmd_sep.
Proof.
  destruct cmds as [|command cmds _] using rev_ind; [done|]. intros _.
  unfold completedToStr. rewrite foldl_builder_snoc.
  eexists. by rewrite append_assoc.
Qed.

Lemma resourceName_one_token (tok : string) :
  strings.IndexByte tok space <= 0 →
  resourceName (completedToStr [{| Commands := [tok] |}]) = tok +:+ cmd_sep.
Proof.
  intros Hidx. unfold completedToStr. simpl.
  change (EmptyString +:+ (tok +:+ cmd_sep)) with (tok +:+ cmd_sep).
  unfold resourceName. unfold strings.IndexByte in *.
  destruct (decide (strings.index_from 0 tok space = -1)) as [Hno|Hyes].
  - rewrite index_from_lacks; [done|].
    by rewrite lacks_append, (index_from_none_lacks space tok 0).
  - rewrite index_from_found_app by done.
    by replace (0 <? strings.index_from 0 tok space) with false
      by (symmetry; apply Z.ltb_ge; lia).
Qed.

(** *** More about [resourceName] *)

(** An operation string has no space, or it splits at its first space. *)
Lemma split_at_first_space (op : string) :
  strings.lacks space op = true
  ∨ ∃ pre post, strings.lacks space pre = true ∧ op = pre +:+ String space post.
Proof.
  induction op as [|b op IH]; [by left|].
  destruct (Ascii.eqb_spec b space) as [->|Hb].
  - right. by exists EmptyString, op.
  - destruct IH as [IH|(pre & post & Hpre & ->)].
    + left. simpl. rewrite IH. by destruct (Ascii.eqb_spec b space).
    + right. exists (String b pre), post. split; [|done].
      simpl. rewrite Hpre. by destruct (Ascii.eqb_spec b space).
Qed.

(** The three cases of [resourceName]: the whole string when it has no
    space or begins with one, and otherwise the part before the first
    space, which is not empty and has no space. *)
Lemma resourceName_cases (op : string) :
  resourceName op = op
  ∧ (strings.lacks space op = true ∨ ∃ post, op = String space post)
  ∨ ∃ pre post, op = pre +:+ String space post ∧ pre ≠ EmptyString
      ∧ strings.lacks space pre = true ∧ resourceName op = pre.
Proof.
  destruct (split_at_first_space op) as [Hop|(pre & post & Hpre & ->)].
  - left. split; [by apply resourceName_no_space|by left].
  - rewrite resourceName_before_space by done.
    destruct (decide (pre = EmptyString)) as [->|Hne].
    + left. split; [done|]. right. by exists post.
    + right. by exists pre, post.
Qed.

(** X1: taking the resource name twice gives what taking it once gives. *)
Theorem resourceName_idempotent (op : string) :
  resourceName (resourceName op) = resourceName op.
Proof.
  destruct (resourceName_cases op) as [[Hop _]|(pre & post & _ & _ & Hpre & ->)];
    [by rewrite !Hop|by apply resourceName_no_space].
Qed.

(** X2: the resource name is a prefix of the operation string, so it is
    never longer. *)
Theorem resourceName_is_prefix (op : string) :
  (∃ rest, op = resourceName op +:+ rest)
  ∧ (String.length (resourceName op) ≤ String.length op)%nat.
Proof.
  assert (∃ rest, op = resourceName op +:+ rest) as [rest Hrest].
  { destruct (resourceName_cases op) as [[-> _]|(pre & post & -> & _ & _ & ->)].
    - exists EmptyString. by rewrite append_nil_r.
    - by eexists. }
  split; [by exists rest|].
  rewrite Hrest at 2. apply length_append_l.
Qed.

(** X3: the resource name of an operation string that is not empty is not
    empty. *)
Theorem resourceName_not_empty (op : string) :
  op ≠ EmptyString → resourceName op ≠ EmptyString.
Proof.
  intros Hop.
  destruct (resourceName_cases op) as [[-> _]|(pre & post & _ & Hne & _ & ->)];
    done.
Qed.

Lemma resourceName_not_empty_witness :
  "GET k"%string ≠ EmptyString ∧ resourceName "GET k" ≠ EmptyString.
Proof.
  split; [done|]. by apply (resourceName_not_empty "GET k").
Defined.

(** X4: the resource name has no space, unless the operation string begins
    with a space, and then it is the whole operation string. *)
Theorem resourceName_space_free (op : string) :
  strings.lacks space (resourceName op) = true
  ∨ (∃ post, op = String space post) ∧ resourceName op = op.
Proof.
  destruct (resourceName_cases op)
    as [[Hop [Hlacks|Hlead]]|(pre & post & _ & _ & Hpre & ->)].
  - left. by rewrite Hop.
  - by right.
  - by left.
Qed.

(** *** More about the operation string *)

(** X5: the operation string of two batches put together is the two
    operation strings put together. *)
Theorem completedToStr_app (cmds1 cmds2 : list Completed) :
  completedToStr (cmds1 ++ cmds2) = completedToStr cmds1 +:+ completedToStr cmds2.
Proof.
  unfold completedToStr. rewrite foldl_app.
  rewrite (foldl_builder _ (foldl _ _ cmds1)).
  by rewrite (foldl_builder _ EmptyString cmds2).
Qed.

(** X6: the three functions that build an operation string agree: a
    cacheable command gives what the completed command of the same tokens
    gives, and the time to live of a cacheable command plays no part. *)
Theorem cacheable_operation_strings (cmds : list Cacheable)
    (ttls : list CacheableTTL) :
  cacheableToStr cmds
  = completedToStr ((λ c, {| Commands := Cacheable_Commands c |}) <$> cmds)
  ∧ cacheableTtlToStr ttls = cacheableToStr (Cmd <$> ttls).
Proof.
  unfold cacheableToStr, cacheableTtlToStr, completedToStr.
  by rewrite !foldl_fmap.
Qed.

Lemma completedToStr_first_token (tok tok2 : string) (more : list string)
    (rest : list Completed) :
  tok ≠ EmptyString → strings.lacks space tok = true →
  resourceName (completedToStr ({| Commands := tok :: tok2 :: more |} :: rest))
  = tok.
Proof.
  intros Hne Htok.
  change ({| Commands := tok :: tok2 :: more |} :: rest)
    with ([{| Commands := tok :: tok2 :: more |}] ++ rest).
  rewrite completedToStr_foldr. simpl.
  change (strings.Join (tok :: tok2 :: more) " ")
    with (tok +:+ String space (strings.Join (tok2 :: more) " ")).
  rewrite !append_assoc. rewrite append_cons.
  rewrite resourceName_before_space by done.
  by rewrite decide_False.
Qed.

Lemma resourceName_empty (op : string) :
  resourceName op = EmptyString → op = EmptyString.
Proof.
  destruct (resourceName_cases op) as [[-> _]|(pre & post & _ & Hne & _ & ->)];
    done.
Qed.

(** X16: the resource name of a batch is empty for the empty batch and for
    no other. *)
Theorem batch_resource_empty_iff (cmds : list Completed) :
  resourceName (completedToStr cmds) = EmptyString ↔ cmds = [].
Proof.
  split; [|by intros ->].
  intros H. apply resourceName_empty in H.
  destruct cmds as [|c rest]; [done|].
  rewrite completedToStr_foldr in H. simpl in H.
  destruct (strings.Join (Commands c) " ") as [|a s].
  - change (EmptyString +:+ cmd_sep) with cmd_sep in H.
    unfold cmd_sep in H. by rewrite append_cons in H.
  - by rewrite !append_cons in H.
Qed.

Section hook.
Context {errors : Errors} {ext : Ext} {defaults : Defaults}.
Local Abbreviation error := (option E).

(** *** [additionalTagOptions] *)

(** C9: the "addrs" tag of a wrapped client is the address list followed by
    itself, joined by a comma and a space; for no address it is the empty
    string. *)
Theorem additionalTagOptions_doubles (addrs : list string) (opts : list ClientOption) :
  additionalTags (hook_params (WrapClient addrs opts))
  = [Tag "addrs" (VString (strings.Join (addrs ++ addrs) ", "))]
  ∧ additionalTagOptions [] = [Tag "addrs" (VString "")].
Proof.
  split; [|done]. simpl. unfold additionalTagOptions.
  by rewrite foldl_snoc_all.
Qed.

(** *** Running the hook *)

Lemma start_run (h : datadogHook) (ctx : Context) (op : string) (size : Z)
    (t : Tracer E) :
  start h ctx op size t
  = (({| ctx_span := Some (length t) |}, None),
     t ++ [StartSpan (length t) (ctx_span ctx) "redis.command" (start_opts h op size)]).
Proof. reflexivity. Qed.

Lemma end_run (h : datadogHook) (ctx : Context) (errRedis : error) (t : Tracer E) :
  end_ h ctx errRedis t = (tt, t ++ [Finish (ctx_span ctx) (finish_opts h errRedis)]).
Proof. unfold end_, SpanFromContext. by destruct (ctx_span ctx). Qed.

Lemma traced_start_end {A} (h : datadogHook) (ctx : Context) (op : string)
    (size : Z) (run : Context → A) (err : A → error) (t : Tracer E) :
  traced ('(ctx', _) ← start h ctx op size;
          let a := run ctx' in _ ← end_ h ctx' (err a); mret a)
         ctx t (run {| ctx_span := Some (length t) |})
         (start_opts h op size)
         (finish_opts h (err (run {| ctx_span := Some (length t) |}))).
Proof.
  unfold traced, mbind, M_bind. rewrite start_run, end_run. simpl.
  by rewrite <- app_assoc.
Qed.

Lemma traced_new_calls {A} (m : M E A) ctx t a sopts fopts :
  traced m ctx t a sopts fopts →
  new_calls m t = [StartSpan (length t) (ctx_span ctx) "redis.command" sopts;
                   Finish (Some (length t)) fopts].
Proof. unfold traced, new_calls. intros ->. simpl. by rewrite drop_app_length. Qed.

Lemma traced_ignore {A} (m : M E A) ctx t a sopts fopts :
  traced m ctx t a sopts fopts →
  traced (_ ← m; mret tt) ctx t tt sopts fopts.
Proof. unfold traced, mbind, M_bind. by intros ->. Qed.

Lemma Do_traced h client ctx cmd t :
  traced (Do h client ctx cmd) ctx t
    (client_Do client {| ctx_span := Some (length t) |} cmd)
    (start_opts h (completedToStr [cmd]) (len (Commands cmd)))
    (finish_opts h (Error (client_Do client {| ctx_span := Some (length t) |} cmd))).
Proof. apply (traced_start_end h ctx _ _ (λ c, client_Do client c cmd) Error). Qed.

Lemma DoMulti_traced h client ctx multi t :
  traced (DoMulti h client ctx multi) ctx t
    (client_DoMulti client {| ctx_span := Some (length t) |} multi)
    (start_opts h (completedToStr multi) (len multi))
    (finish_opts h
       (firstError (client_DoMulti client {| ctx_span := Some (length t) |} multi))).
Proof.
  apply (traced_start_end h ctx _ _ (λ c, client_DoMulti client c multi) firstError).
Qed.

Lemma DoCache_traced h client ctx cmd ttl t :
  traced (DoCache h client ctx cmd ttl) ctx t
    (client_DoCache client {| ctx_span := Some (length t) |} cmd ttl)
    (start_opts h (cacheableToStr [cmd]) (len (Cacheable_Commands cmd)))
    (finish_opts h
       (Error (client_DoCache client {| ctx_span := Some (length t) |} cmd ttl))).
Proof.
  apply (traced_start_end h ctx _ _ (λ c, client_DoCache client c cmd ttl) Error).
Qed.

Lemma DoMultiCache_traced h client ctx multi t :
  traced (DoMultiCache h client ctx multi) ctx t
    (client_DoMultiCache client {| ctx_span := Some (length t) |} multi)
    (start_opts h (cacheableTtlToStr multi) (len multi))
    (finish_opts h
       (firstError (client_DoMultiCache client {| ctx_span := Some (length t) |} multi))).
Proof.
  apply (traced_start_end h ctx _ _ (λ c, client_DoMultiCache client c multi) firstError).
Qed.

Lemma Receive_traced h client ctx subscribe fn t :
  traced (Receive h client ctx subscribe fn) ctx t
    (client_Receive client {| ctx_span := Some (length t) |} subscribe fn)
    (start_opts h (completedToStr [subscribe]) (len (Commands subscribe)))
    (finish_opts h
       (client_Receive client {| ctx_span := Some (length t) |} subscribe fn)).
Proof.
  apply (traced_start_end h ctx _ _ (λ c, client_Receive client c subscribe fn) id).
Qed.

Lemma invoke_traced h client ctx c t :
  ∃ fopts, traced (invoke h client ctx c) ctx t tt
             (start_opts h (call_op c) (call_size c)) fopts.
Proof.
  destruct c; simpl; eexists.
  - eapply traced_ignore, Do_traced.
  - eapply traced_ignore, DoMulti_traced.
  - eapply traced_ignore, DoCache_traced.
  - eapply traced_ignore, DoMultiCache_traced.
  - eapply traced_ignore, Receive_traced.
Qed.

(** C5: a call through any of the five methods adds to the calls made to the
    tracer exactly one start of a span and one finish, of that span, whatever
    the client returns and however the error is classified. *)
Theorem hook_call_one_start_one_finish (h : datadogHook) (client : Client)
    (ctx : Context) (c : HookCall) (t : Tracer E) :
  snd (invoke h client ctx c t) = t ++ new_calls (invoke h client ctx c) t
  ∧ count is_start (new_calls (invoke h client ctx c) t) = 1%nat
  ∧ count is_finish (new_calls (invoke h client ctx c) t) = 1%nat
  ∧ ∃ sopts fopts,
      new_calls (invoke h client ctx c) t
      = [StartSpan (length t) (ctx_span ctx) "redis.command" sopts;
         Finish (Some (length t)) fopts].
Proof.
  destruct (invoke_traced h client ctx c t) as [fopts H].
  rewrite (traced_new_calls _ _ _ _ _ _ H). unfold traced in H. rewrite H.
  repeat split; eauto.
Qed.

(** *** [end] *)

(** C2: [end] finishes the span of the context in every case, and it finishes
    it with the error exactly when the error is not [rueidis.Nil] and the
    configured predicate classifies it as an error; [rueidis.Nil] never marks
    the span, whatever the predicate says. *)
Theorem end_marks_failed_iff (h : datadogHook) (ctx : Context) (e : error)
    (t : Tracer E) :
  end_ h ctx e t = (tt, t ++ [Finish (ctx_span ctx) (finish_opts h e)])
  ∧ (finish_opts h e = [WithError e] ∨ finish_opts h e = [])
  ∧ (finish_opts h e = [WithError e]
     ↔ e ≠ Some Nil ∧ errCheck (config (hook_params h)) e = true)
  ∧ finish_opts h (Some Nil) = [].
Proof.
  split; [apply end_run|]. unfold finish_opts.
  split; [|split].
  - destruct (_ && _); auto.
  - destruct (decide (e = Some Nil)) as [->|Hne].
    + rewrite bool_decide_false by auto. simpl. split; [done|]. by intros [? _].
    + rewrite bool_decide_true by done. simpl.
      destruct (errCheck _ e); split; try done. by intros [_ ?].
  - by rewrite bool_decide_false by auto.
Qed.

(** *** [firstError] *)

Lemma firstError_skips (s : list RedisResult) :
  Forall (λ r, Error r = None ∨ IsRedisNil (Error r) = true) s →
  firstError s = None.
Proof.
  induction 1 as [|r s Hr _ IH]; simpl; [done|].
  destruct Hr as [->| ->]; [done|]. by rewrite andb_false_r.
Qed.

Lemma firstError_first (pre post : list RedisResult) (r : RedisResult) :
  Forall (λ r, Error r = None ∨ IsRedisNil (Error r) = true) pre →
  Error r ≠ None → IsRedisNil (Error r) = false →
  firstError (pre ++ r :: post) = Error r.
Proof.
  intros Hpre Hr Hnil. induction Hpre as [|r' pre Hr' _ IH]; simpl.
  - by rewrite bool_decide_true, Hnil.
  - destruct Hr' as [->| ->]; [done|]. by rewrite andb_false_r.
Qed.

(** C4: [firstError] is the error of the first result, in order, whose error
    is neither [nil] nor a Redis nil reply; when every result has no error or
    a Redis nil reply, it is [nil]. With three results of which the first
    carries [rueidis.Nil] and the second a real error, it is the second's.
    Both batch methods, [DoMulti] and [DoMultiCache], finish the span with
    what [end] makes of that error. *)
Theorem firstError_first_real_error (s : list RedisResult) :
  (Forall (λ r, Error r = None ∨ IsRedisNil (Error r) = true) s →
   firstError s = None)
  ∧ (∀ pre r post,
       s = pre ++ r :: post →
       Forall (λ r, Error r = None ∨ IsRedisNil (Error r) = true) pre →
       Error r ≠ None → IsRedisNil (Error r) = false →
       firstError s = Error r)
  ∧ (∀ r1 r2 r3 e,
       s = [r1; r2; r3] →
       Error r1 = Some Nil → IsRedisNil (Some Nil) = true →
       Error r2 = Some e → IsRedisNil (Some e) = false →
       firstError s = Some e)
  ∧ (∀ h client ctx multi t,
       s = client_DoMulti client {| ctx_span := Some (length t) |} multi →
       ∃ sopts,
         new_calls (DoMulti h client ctx multi) t
         = [StartSpan (length t) (ctx_span ctx) "redis.command" sopts;
            Finish (Some (length t)) (finish_opts h (firstError s))])
  ∧ (∀ h client ctx multi t,
       s = client_DoMultiCache client {| ctx_span := Some (length t) |} multi →
       ∃ sopts,
         new_calls (DoMultiCache h client ctx multi) t
         = [StartSpan (length t) (ctx_span ctx) "redis.command" sopts;
            Finish (Some (length t)) (finish_opts h (firstError s))]).
Proof.
  split; [apply firstError_skips|]. split; [|split; [|split]].
  - intros pre r post -> Hpre Hr Hnil. by apply firstError_first.
  - intros r1 r2 r3 e -> H1 Hnil H2 Hreal.
    rewrite <- H2. apply (firstError_first [r1] [r3] r2).
    + constructor; [|done]. right. by rewrite H1.
    + by rewrite H2.
    + by rewrite H2.
  - intros h client ctx multi t ->. eexists.
    apply (traced_new_calls _ _ _ _ _ _ (DoMulti_traced h client ctx multi t)).
  - intros h client ctx multi t ->. eexists.
    apply (traced_new_calls _ _ _ _ _ _
             (DoMultiCache_traced h client ctx multi t)).
Qed.

(** *** The tags of the span [start] starts *)

Lemma start_opts_args_length (addrs : list string) (opts : list ClientOption)
    (op : string) (size : Z) :
  ext_keys_avoid "redis.args_length" →
  tags_of (start_opts (WrapClient addrs opts) op size) !! "redis.args_length"
  = Some (VString (strconv.Itoa size)).
Proof.
  intros (HC & HK & HD & HR). unfold start_opts. simpl.
  destruct (skipRaw _), (is_nan _); simpl; unfold tags_of; simpl;
    by simplify_map_eq.
Qed.

Lemma start_opts_raw_command (addrs : list string) (opts : list ClientOption)
    (op : string) (size : Z) :
  ext_keys_avoid "redis.raw_command" →
  tags_of (start_opts (WrapClient addrs opts) op size) !! "redis.raw_command"
  = if skipRaw (config (hook_params (WrapClient addrs opts)))
    then None else Some (VString op).
Proof.
  intros (HC & HK & HD & HR). unfold start_opts. simpl.
  destruct (skipRaw _), (is_nan _); simpl; unfold tags_of; simpl;
    by simplify_map_eq.
Qed.

(** C1, as the code has it: the span any method starts carries the tag
    "redis.args_length"; for [Do], [DoCache] and [Receive] its value is the
    number of tokens of the command in decimal, which is 1 only for a command
    of one token, and for [DoMulti] and [DoMultiCache] it is the number of
    commands of the batch. *)
Theorem args_length_tag (addrs : list string) (opts : list ClientOption)
    (client : Client) (ctx : Context) (c : HookCall) (t : Tracer E) :
  ext_keys_avoid "redis.args_length" →
  ∃ sopts fopts,
    new_calls (invoke (WrapClient addrs opts) client ctx c) t
    = [StartSpan (length t) (ctx_span ctx) "redis.command" sopts;
       Finish (Some (length t)) fopts]
    ∧ tags_of sopts !! "redis.args_length"
      = Some (VString (strconv.Itoa
          match c with
          | CallDo cmd => len (Commands cmd)
          | CallDoCache cmd _ => len (Cacheable_Commands cmd)
          | CallReceive subscribe _ => len (Commands subscribe)
          | CallDoMulti multi => len multi
          | CallDoMultiCache multi => len multi
          end)).
Proof.
  intros Hext.
  destruct (invoke_traced (WrapClient addrs opts) client ctx c t) as [fopts H].
  eexists _, fopts. split; [by apply (traced_new_calls _ _ _ _ _ _ H)|].
  rewrite start_opts_args_length by done. by destruct c.
Qed.

(** C8: with raw-command redaction configured, the span any method starts
    has no "redis.raw_command" tag, whatever the commands are. *)
Theorem redacted_span_has_no_raw_command (addrs : list string)
    (opts : list ClientOption) (client : Client) (ctx : Context)
    (c : HookCall) (t : Tracer E) :
  ext_keys_avoid "redis.raw_command" →
  skipRaw (config (hook_params (WrapClient addrs opts))) = true →
  ∃ sopts fopts,
    new_calls (invoke (WrapClient addrs opts) client ctx c) t
    = [StartSpan (length t) (ctx_span ctx) "redis.command" sopts;
       Finish (Some (length t)) fopts]
    ∧ tags_of sopts !! "redis.raw_command" = None.
Proof.
  intros Hext Hskip.
  destruct (invoke_traced (WrapClient addrs opts) client ctx c t) as [fopts H].
  eexists _, fopts. split; [by apply (traced_new_calls _ _ _ _ _ _ H)|].
  rewrite start_opts_raw_command by done. by rewrite Hskip.
Qed.

(** C10, as the code has it: the operation string is, command after command,
    the tokens joined by single spaces followed by a colon and a line feed,
    so for at least one command it ends in these two bytes; without redaction
    it is the "redis.raw_command" tag; and it is the resource name of a
    single command of one token when that token has no space after its first
    byte. *)
Theorem completedToStr_ends_with_separator (cmds : list Completed) :
  completedToStr cmds
  = foldr (λ command rest,
             (strings.Join (Commands command) " " +:+ cmd_sep) +:+ rest)
          EmptyString cmds
  ∧ (cmds ≠ [] → strings.HasSuffix (completedToStr cmds) cmd_sep)
  ∧ (∀ addrs opts client ctx (t : Tracer E),
       ext_keys_avoid "redis.raw_command" →
       skipRaw (config (hook_params (WrapClient addrs opts))) = false →
       ∃ sopts fopts,
         new_calls (DoMulti (WrapClient addrs opts) client ctx cmds) t
         = [StartSpan (length t) (ctx_span ctx) "redis.command" sopts;
            Finish (Some (length t)) fopts]
         ∧ tags_of sopts !! "redis.raw_command"
           = Some (VString (completedToStr cmds)))
  ∧ (∀ tok, cmds = [{| Commands := [tok] |}] →
       strings.IndexByte tok space <= 0 →
       resourceName (completedToStr cmds) = tok +:+ cmd_sep).
Proof.
  split; [apply completedToStr_foldr|].
  split; [apply completedToStr_suffix|]. split.
  - intros addrs opts client ctx t Hext Hskip. eexists _, _.
    split;
      [apply (traced_new_calls _ _ _ _ _ _
                (DoMulti_traced (WrapClient addrs opts) client ctx cmds t))|].
    rewrite start_opts_raw_command by done. by rewrite Hskip.
  - intros tok -> Hidx. by apply resourceName_one_token.
Qed.

(** C10 as worded fails for a single command whose one token has a space
    inside: the resource name stops at that space. *)
Lemma resourceName_one_token_with_space :
  completedToStr [CLIENT_LIST] = "CLIENT LIST" +:+ cmd_sep
  ∧ resourceName (completedToStr [CLIENT_LIST]) = "CLIENT"
  ∧ ¬ strings.HasSuffix (resourceName (completedToStr [CLIENT_LIST])) cmd_sep.
Proof.
  split; [reflexivity|]. split; [reflexivity|]. intros [pre H].
  do 7 (destruct pre as [|? pre]; [by vm_compute in H|]).
  by vm_compute in H.
Qed.

(** *** More about the hook *)

(** X7: what each of the five methods returns is what the client returns
    when it is called with the same arguments and the context that carries
    the span just started. *)
Theorem hook_returns_client_result (h : datadogHook) (client : Client)
    (ctx : Context) (t : Tracer E) :
  let ctx' := {| ctx_span := Some (length t) |} in
  (∀ cmd, fst (Do h client ctx cmd t) = client_Do client ctx' cmd)
  ∧ (∀ multi, fst (DoMulti h client ctx multi t) = client_DoMulti client ctx' multi)
  ∧ (∀ cmd ttl,
       fst (DoCache h client ctx cmd ttl t) = client_DoCache client ctx' cmd ttl)
  ∧ (∀ multi,
       fst (DoMultiCache h client ctx multi t) = client_DoMultiCache client ctx' multi)
  ∧ (∀ subscribe fn,
       fst (Receive h client ctx subscribe fn t)
       = client_Receive client ctx' subscribe fn).
Proof.
  split; [|split; [|split; [|split]]]; intros.
  - by rewrite (Do_traced h client ctx cmd t).
  - by rewrite (DoMulti_traced h client ctx multi t).
  - by rewrite (DoCache_traced h client ctx cmd ttl t).
  - by rewrite (DoMultiCache_traced h client ctx multi t).
  - by rewrite (Receive_traced h client ctx subscribe fn t).
Qed.

Lemma start_opts_resource (addrs : list string) (opts : list ClientOption)
    (op : string) (size : Z) (r : string) :
  ResourceName r ∈ start_opts (WrapClient addrs opts) op size
  ↔ r = resourceName op.
Proof.
  unfold start_opts. simpl. unfold additionalTagOptions.
  destruct (skipRaw _), (is_nan _); simpl;
    rewrite ?elem_of_app, !elem_of_cons, ?elem_of_nil;
    (split; [intuition congruence|intros ->; auto 10]).
Qed.

(** X8: the span of a batch gets one resource name, the first token of the
    first command, when that command has more tokens and its first token is
    not empty and has no space. *)
Theorem batch_resource_is_first_token (addrs : list string)
    (opts : list ClientOption) (client : Client) (ctx : Context)
    (tok tok2 : string) (more : list string) (rest : list Completed)
    (t : Tracer E) :
  tok ≠ EmptyString → strings.lacks space tok = true →
  ∃ sopts fopts,
    new_calls (DoMulti (WrapClient addrs opts) client ctx
                 ({| Commands := tok :: tok2 :: more |} :: rest)) t
    = [StartSpan (length t) (ctx_span ctx) "redis.command" sopts;
       Finish (Some (length t)) fopts]
    ∧ ∀ r, ResourceName r ∈ sopts ↔ r = tok.
Proof.
  intros Hne Htok. eexists _, _.
  split; [apply (traced_new_calls _ _ _ _ _ _ (DoMulti_traced _ client ctx _ t))|].
  intros r. rewrite start_opts_resource.
  by rewrite completedToStr_first_token.
Qed.

(** *** More about [firstError] *)

Lemma firstError_cons (r : RedisResult) (s : list RedisResult) :
  firstError (r :: s)
  = if bool_decide (Error r ≠ None) && negb (IsRedisNil (Error r))
    then Error r else firstError s.
Proof. reflexivity. Qed.

(** X9: the first error of two lists of results put together is the first
    error of the first list if it has one, and else that of the second. *)
Theorem firstError_app (s1 s2 : list RedisResult) :
  firstError (s1 ++ s2)
  = match firstError s1 with
    | Some e => Some e
    | None => firstError s2
    end.
Proof.
  induction s1 as [|r s1 IH]; [done|].
  rewrite <- app_comm_cons, !firstError_cons.
  destruct (bool_decide (Error r ≠ None)) eqn:Hr; simpl; [|done].
  destruct (IsRedisNil (Error r)); simpl; [done|].
  apply bool_decide_eq_true in Hr. by destruct (Error r).
Qed.

(** X10: what [firstError] returns is the error of one of the results and
    never a Redis nil reply; it returns [nil] exactly when every result has
    no error or a Redis nil reply. *)
Theorem firstError_sound (s : list RedisResult) :
  (∀ e, firstError s = Some e →
        IsRedisNil (Some e) = false ∧ ∃ r, r ∈ s ∧ Error r = Some e)
  ∧ (firstError s = None
     ↔ Forall (λ r, Error r = None ∨ IsRedisNil (Error r) = true) s).
Proof.
  split.
  - intros e. induction s as [|r s IH]; [done|].
    rewrite firstError_cons.
    destruct (bool_decide (Error r ≠ None)) eqn:Hr; simpl.
    + destruct (IsRedisNil (Error r)) eqn:Hnil; simpl.
      * intros He. destruct (IH He) as (? & r' & ? & ?).
        split; [done|]. exists r'. split; [by right|done].
      * intros He. rewrite He in Hnil. split; [done|].
        exists r. split; [by left|done].
    + intros He. destruct (IH He) as (? & r' & ? & ?).
      split; [done|]. exists r'. split; [by right|done].
  - split; [|apply firstError_skips].
    induction s as [|r s IH]; [by constructor|].
    rewrite firstError_cons.
    destruct (bool_decide (Error r ≠ None)) eqn:Hr; simpl.
    + destruct (IsRedisNil (Error r)) eqn:Hnil; simpl.
      * intros He. constructor; [by right|by apply IH].
      * intros He. apply bool_decide_eq_true in Hr. by rewrite He in Hr.
    + intros He. constructor; [|by apply IH]. left.
      apply bool_decide_eq_false in Hr. by destruct (Error r); [destruct Hr|].
Qed.

(** X11: a batch whose results all have no error or a Redis nil reply is
    finished as a call without error is: with no error at all when the
    configured predicate does not take [nil] for an error. *)
Theorem batch_without_real_error (h : datadogHook) (client : Client)
    (ctx : Context) (multi : list Completed) (t : Tracer E) :
  Forall (λ r, Error r = None ∨ IsRedisNil (Error r) = true)
         (client_DoMulti client {| ctx_span := Some (length t) |} multi) →
  errCheck (config (hook_params h)) None = false →
  ∃ sopts,
    new_calls (DoMulti h client ctx multi) t
    = [StartSpan (length t) (ctx_span ctx) "redis.command" sopts;
       Finish (Some (length t)) []].
Proof.
  intros Hall Hcheck. eexists.
  rewrite (traced_new_calls _ _ _ _ _ _ (DoMulti_traced h client ctx multi t)).
  rewrite (firstError_skips _ Hall). unfold finish_opts.
  by rewrite Hcheck, andb_false_r.
Qed.

(** X12: a Redis nil reply that is not [rueidis.Nil] itself is treated in
    two ways. As the error of a single command it marks the span when the
    configured predicate takes it for an error; as the only error of a batch
    it is passed over, and the span is finished as a call without error
    is. *)
Theorem nil_reply_single_and_batch (h : datadogHook) (client : Client)
    (ctx : Context) (cmd : Completed) (multi : list Completed) (e : E)
    (t : Tracer E) :
  IsRedisNil (Some e) = true → e ≠ Nil →
  errCheck (config (hook_params h)) (Some e) = true →
  Error (client_Do client {| ctx_span := Some (length t) |} cmd) = Some e →
  Error <$> client_DoMulti client {| ctx_span := Some (length t) |} multi
  = [Some e] →
  (∃ sopts,
     new_calls (Do h client ctx cmd) t
     = [StartSpan (length t) (ctx_span ctx) "redis.command" sopts;
        Finish (Some (length t)) [WithError (Some e)]])
  ∧ (∃ sopts,
       new_calls (DoMulti h client ctx multi) t
       = [StartSpan (length t) (ctx_span ctx) "redis.command" sopts;
          Finish (Some (length t)) (finish_opts h None)]).
Proof.
  intros Hnil Hne Hcheck Hdo Hmulti. split; eexists.
  - rewrite (traced_new_calls _ _ _ _ _ _ (Do_traced h client ctx cmd t)).
    rewrite Hdo. unfold finish_opts.
    rewrite bool_decide_true by congruence. by rewrite Hcheck.
  - rewrite (traced_new_calls _ _ _ _ _ _ (DoMulti_traced h client ctx multi t)).
    destruct (client_DoMulti client _ multi) as [|r [|??]]; [done| |done].
    injection Hmulti as Hr. simpl. by rewrite Hr, Hnil.
Qed.

(** *** The span every method starts *)

(** X13: whichever method is called on a wrapped client, the span it starts
    has one span type, the Redis one, one service name, the configured one,
    and one resource name, that of the operation string of the call. *)
Theorem span_type_service_resource (addrs : list string)
    (opts : list ClientOption) (client : Client) (ctx : Context)
    (c : HookCall) (t : Tracer E) :
  ∃ sopts fopts,
    new_calls (invoke (WrapClient addrs opts) client ctx c) t
    = [StartSpan (length t) (ctx_span ctx) "redis.command" sopts;
       Finish (Some (length t)) fopts]
    ∧ (∀ s, SpanType s ∈ sopts ↔ s = SpanTypeRedis)
    ∧ (∀ s, ServiceName s ∈ sopts
            ↔ s = serviceName (foldl (λ cfg fn, fn cfg) defaults_cfg opts))
    ∧ (∀ r, ResourceName r ∈ sopts
            ↔ r = resourceName
                    match c with
                    | CallDo cmd => completedToStr [cmd]
                    | CallDoMulti multi => completedToStr multi
                    | CallDoCache cmd _ => cacheableToStr [cmd]
                    | CallDoMultiCache multi => cacheableTtlToStr multi
                    | CallReceive subscribe _ => completedToStr [subscribe]
                    end).
Proof.
  destruct (invoke_traced (WrapClient addrs opts) client ctx c t) as [fopts H].
  eexists _, fopts. split; [by apply (traced_new_calls _ _ _ _ _ _ H)|].
  split; [|split].
  - intros s. unfold start_opts. simpl. unfold additionalTagOptions.
    destruct (skipRaw _), (is_nan _); simpl;
      rewrite ?elem_of_app, !elem_of_cons, ?elem_of_nil;
      (split; [intuition congruence|intros ->; auto 10]).
  - intros s. unfold start_opts. simpl. unfold additionalTagOptions.
    destruct (skipRaw _), (is_nan _); simpl;
      rewrite ?elem_of_app, !elem_of_cons, ?elem_of_nil;
      (split; [intuition congruence|intros ->; auto 10]).
  - intros r. rewrite start_opts_resource. by destruct c.
Qed.

(** X14: when the seven tag keys are different from one another, the tags
    of the span any method starts on a wrapped client are these: the
    component, the span kind and the database system; the addresses, each
    twice; the analytics rate exactly when it is a number; and no tag under
    any other key. *)
Theorem started_span_tags (addrs : list string) (opts : list ClientOption)
    (client : Client) (ctx : Context) (c : HookCall) (t : Tracer E) :
  NoDup start_keys →
  ∃ sopts fopts,
    new_calls (invoke (WrapClient addrs opts) client ctx c) t
    = [StartSpan (length t) (ctx_span ctx) "redis.command" sopts;
       Finish (Some (length t)) fopts]
    ∧ tags_of sopts !! Component = Some (VString "rueidis")
    ∧ tags_of sopts !! SpanKind = Some (VString SpanKindClient)
    ∧ tags_of sopts !! DBSystem = Some (VString DBSystemRedis)
    ∧ tags_of sopts !! "addrs" = Some (VString (strings.Join (addrs ++ addrs) ", "))
    ∧ tags_of sopts !! EventSampleRate
      = (let rate := analyticsRate (foldl (λ cfg fn, fn cfg) defaults_cfg opts) in
         if is_nan rate then None else Some (VFloat rate))
    ∧ ∀ k, k ∉ start_keys → tags_of sopts !! k = None.
Proof.
  intros Hnd. unfold start_keys in Hnd.
  repeat match goal with
         | H : NoDup (_ :: _) |- _ => apply NoDup_cons in H as [? H]
         end.
  repeat match goal with
         | H : _ ∉ _ :: _ |- _ => apply not_elem_of_cons in H as [? H]
         end.
  destruct (invoke_traced (WrapClient addrs opts) client ctx c t) as [fopts H'].
  eexists _, fopts. split; [by apply (traced_new_calls _ _ _ _ _ _ H')|].
  unfold start_opts. simpl. unfold additionalTagOptions.
  rewrite foldl_snoc_all.
  assert (∀ k, k ∉ start_keys →
               "redis.args_length" ≠ k ∧ Component ≠ k ∧ SpanKind ≠ k
               ∧ DBSystem ≠ k ∧ "redis.raw_command" ≠ k ∧ "addrs" ≠ k
               ∧ EventSampleRate ≠ k) as Hout.
  { intros k Hk. unfold start_keys in Hk.
    rewrite !not_elem_of_cons in Hk. intuition congruence. }
  destruct (skipRaw _), (is_nan _); simpl; unfold tags_of; simpl;
    (split; [|split; [|split; [|split; [|split]]]]);
    try (intros k Hk; destruct (Hout k Hk) as (? & ? & ? & ? & ? & ? & ?));
    by simplify_map_eq.
Qed.

(** *** Many calls through the hook *)

Lemma count_app (p : Call E → bool) (l1 l2 : list (Call E)) :
  count p (l1 ++ l2) = (count p l1 + count p l2)%nat.
Proof. unfold count. by rewrite List.filter_app, length_app. Qed.

Lemma spans_closed_nil : spans_closed [].
Proof.
  intros id. unfold starts_of, finishes_of, count. simpl.
  split; [lia|]. by split.
Qed.

Lemma spans_closed_traced (t : Tracer E) (parent : option nat) (name : string)
    (sopts : list StartSpanOption) (fopts : list (FinishOption E)) :
  spans_closed t →
  spans_closed (t ++ [StartSpan (length t) parent name sopts;
                      Finish (Some (length t)) fopts]).
Proof.
  intros Ht id. destruct (Ht id) as (H1 & H2 & H3).
  unfold starts_of, finishes_of in *. rewrite !count_app, length_app.
  unfold count at 2 4 6 8. simpl.
  case_bool_decide; simpl; lia.
Qed.

(** X15: however many calls go through the hook, one after the other and
    each with its own context, no span is left open: if every span of the
    tracer was started at most once and finished as often as started, this
    still holds afterwards; every call has added two calls to the tracer,
    and the earlier ones are kept. *)
Theorem invoke_all_spans_closed (h : datadogHook) (client : Client)
    (calls : list (Context * HookCall)) (t : Tracer E) :
  spans_closed t →
  spans_closed (snd (invoke_all h client calls t))
  ∧ length (snd (invoke_all h client calls t)) = (length t + 2 * length calls)%nat
  ∧ t `prefix_of` snd (invoke_all h client calls t).
Proof.
  revert t. induction calls as [|[ctx c] calls IH]; intros t Ht; simpl.
  - split; [done|]. split; [lia|done].
  - unfold mbind, M_bind.
    destruct (invoke_traced h client ctx c t) as [fopts H].
    unfold traced in H. rewrite H.
    destruct (IH _ (spans_closed_traced t (ctx_span ctx) "redis.command"
                      (start_opts h (call_op c) (call_size c)) fopts Ht))
      as (IH1 & IH2 & IH3).
    split; [done|]. split.
    + rewrite IH2, length_app. simpl. lia.
    + etrans; [|exact IH3]. by apply prefix_app_r.
Qed.

End hook.

(** *** The hook at the instance of its parameters *)

#[local] Existing Instances ex_errors ex_ext ex_defaults.

Lemma ex_keys_avoid_args_length : ext_keys_avoid "redis.args_length".
Proof. by repeat split. Defined.

Lemma ex_keys_avoid_raw_command : ext_keys_avoid "redis.raw_command".
Proof. by repeat split. Defined.

(** C1 as the spec words it fails for [Do] with a command of two tokens: the
    tag is "2". *)
Lemma args_length_of_two_tokens :
  ∃ sopts fopts,
    new_calls (Do (ex_hook ["127.0.0.1:6379"] []) (ex_client [])
                 {| ctx_span := None |} GET_k) []
    = [StartSpan 0 None "redis.command" sopts; Finish (Some 0%nat) fopts]
    ∧ tags_of sopts !! "redis.args_length" = Some (VString "2")
    ∧ tags_of sopts !! "redis.args_length" ≠ Some (VString (strconv.Itoa 1)).
Proof.
  eexists _, _. split; [reflexivity|]. split; [by vm_compute|].
  vm_compute. discriminate.
Qed.

Lemma args_length_tag_witness :
  ext_keys_avoid "redis.args_length"
  ∧ ∃ sopts fopts,
      new_calls (invoke (ex_hook ["127.0.0.1:6379"] []) (ex_client [])
                   {| ctx_span := None |} (CallDoMulti [GET_k; PING; GET_k])) []
      = [StartSpan 0 None "redis.command" sopts; Finish (Some 0%nat) fopts]
      ∧ tags_of sopts !! "redis.args_length"
        = Some (VString (strconv.Itoa (len [GET_k; PING; GET_k]))).
Proof.
  split; [exact ex_keys_avoid_args_length|].
  exact (args_length_tag ["127.0.0.1:6379"] [] (ex_client [])
           {| ctx_span := None |} (CallDoMulti [GET_k; PING; GET_k]) []
           ex_keys_avoid_args_length).
Defined.

Lemma redacted_span_has_no_raw_command_witness :
  ext_keys_avoid "redis.raw_command"
  ∧ skipRaw (config (hook_params (ex_hook [] [ex_skip_raw]))) = true
  ∧ ∃ sopts fopts,
      new_calls (invoke (ex_hook [] [ex_skip_raw]) (ex_client [])
                   {| ctx_span := Some 4%nat |} (CallDo GET_k)) []
      = [StartSpan 0 (Some 4%nat) "redis.command" sopts; Finish (Some 0%nat) fopts]
      ∧ tags_of sopts !! "redis.raw_command" = None.
Proof.
  split; [exact ex_keys_avoid_raw_command|]. split; [reflexivity|].
  exact (redacted_span_has_no_raw_command [] [ex_skip_raw] (ex_client [])
           {| ctx_span := Some 4%nat |} (CallDo GET_k) []
           ex_keys_avoid_raw_command eq_refl).
Defined.

Lemma firstError_first_real_error_witness :
  firstError [res_ok; res_nil] = None
  ∧ firstError [res_ok; res_err; res_nil] = Some "ERR wrong type"
  ∧ firstError [res_nil; res_err; res_ok] = Some "ERR wrong type"
  ∧ (∃ sopts,
       new_calls (DoMulti (ex_hook [] []) (ex_client [res_nil; res_err; res_ok])
                    {| ctx_span := None |} [GET_k; GET_k; PING]) []
       = [StartSpan 0 None "redis.command" sopts;
          Finish (Some 0%nat) [WithError (Some "ERR wrong type")]])
  ∧ (∃ sopts,
       new_calls (DoMultiCache (ex_hook [] [])
                    (ex_client [res_nil; res_err; res_ok])
                    {| ctx_span := None |} [GET_k_ttl; GET_k_ttl; GET_k_ttl]) []
       = [StartSpan 0 None "redis.command" sopts;
          Finish (Some 0%nat) [WithError (Some "ERR wrong type")]]).
Proof.
  split; [|split; [|split; [|split]]].
  - apply (proj1 (firstError_first_real_error [res_ok; res_nil])).
    constructor; [by left|]. constructor; [by right|]. constructor.
  - apply (proj1 (proj2 (firstError_first_real_error [res_ok; res_err; res_nil]))
             [res_ok] res_err [res_nil]); [reflexivity| |done|reflexivity].
    constructor; [by left|constructor].
  - apply (proj1 (proj2 (proj2
             (firstError_first_real_error [res_nil; res_err; res_ok])))
             res_nil res_err res_ok "ERR wrong type"); reflexivity.
  - destruct (proj1 (proj2 (proj2 (proj2
                (firstError_first_real_error [res_nil; res_err; res_ok]))))
                (ex_hook [] []) (ex_client [res_nil; res_err; res_ok])
                {| ctx_span := None |} [GET_k; GET_k; PING] [] eq_refl)
      as [sopts Hcalls].
    exists sopts. rewrite Hcalls. reflexivity.
  - destruct (proj2 (proj2 (proj2 (proj2
                (firstError_first_real_error [res_nil; res_err; res_ok]))))
                (ex_hook [] []) (ex_client [res_nil; res_err; res_ok])
                {| ctx_span := None |} [GET_k_ttl; GET_k_ttl; GET_k_ttl] [] eq_refl)
      as [sopts Hcalls].
    exists sopts. rewrite Hcalls. reflexivity.
Defined.

Lemma completedToStr_ends_with_separator_witness :
  strings.HasSuffix (completedToStr [GET_k; PING]) cmd_sep
  ∧ resourceName (completedToStr [PING]) = "PING" +:+ cmd_sep
  ∧ ∃ sopts fopts,
      new_calls (DoMulti (ex_hook [] []) (ex_client [])
                   {| ctx_span := None |} [GET_k; PING]) []
      = [StartSpan 0 None "redis.command" sopts; Finish (Some 0%nat) fopts]
      ∧ tags_of sopts !! "redis.raw_command"
        = Some (VString (completedToStr [GET_k; PING])).
Proof.
  split; [|split].
  - by apply (proj1 (proj2 (completedToStr_ends_with_separator [GET_k; PING]))).
  - apply (proj2 (proj2 (proj2 (completedToStr_ends_with_separator [PING])))
             "PING"); [reflexivity|by vm_compute].
  - apply (proj1 (proj2 (proj2
             (completedToStr_ends_with_separator [GET_k; PING])))
             [] [] (ex_client []) {| ctx_span := None |} []);
      [exact ex_keys_avoid_raw_command|reflexivity].
Defined.

Example completedToStr_two :
  completedToStr [GET_k; PING]
  = "GET k" +:+ cmd_sep +:+ "PING" +:+ cmd_sep.
Proof. reflexivity. Qed.

Example additionalTagOptions_two :
  additionalTagOptions ["a:1"; "b:2"] = [Tag "addrs" (VString "a:1, b:2, a:1, b:2")].
Proof. reflexivity. Qed.

(** *** More of the hook at the instances of its parameters *)

Lemma batch_resource_is_first_token_witness :
  "GET"%string ≠ EmptyString
  ∧ strings.lacks space "GET" = true
  ∧ ∃ sopts fopts,
      new_calls (DoMulti (ex_hook [] []) (ex_client []) {| ctx_span := None |}
                   [GET_k; PING]) []
      = [StartSpan 0 None "redis.command" sopts; Finish (Some 0%nat) fopts]
      ∧ ∀ r, ResourceName r ∈ sopts ↔ r = "GET"%string.
Proof.
  assert ("GET"%string ≠ EmptyString) as Hne by done.
  split; [exact Hne|]. split; [reflexivity|].
  exact (batch_resource_is_first_token [] [] (ex_client []) {| ctx_span := None |}
           "GET" "k" [] [PING] [] Hne eq_refl).
Defined.

Lemma batch_without_real_error_witness :
  Forall (λ r, Error r = None ∨ IsRedisNil (Error r) = true) [res_ok; res_nil]
  ∧ ∃ sopts,
      new_calls (DoMulti (ex_hook [] []) (ex_client [res_ok; res_nil])
                   {| ctx_span := None |} [PING; GET_k]) []
      = [StartSpan 0 None "redis.command" sopts; Finish (Some 0%nat) []].
Proof.
  assert (Forall (λ r, Error r = None ∨ IsRedisNil (Error r) = true)
                 [res_ok; res_nil]) as Hall.
  { constructor; [by left|]. constructor; [by right|]. constructor. }
  split; [exact Hall|].
  exact (batch_without_real_error (ex_hook [] []) (ex_client [res_ok; res_nil])
           {| ctx_span := None |} [PING; GET_k] [] Hall eq_refl).
Defined.

Lemma nil_reply_single_and_batch_witness :
  IsRedisNil (Errors := ex_errors_nil_class) (Some "redis nil of another kind") = true
  ∧ "redis nil of another kind"%string ≠ Nil (Errors := ex_errors_nil_class)
  ∧ (∃ sopts,
       new_calls (Do ex_hook_nil_class ex_client_nil_class {| ctx_span := None |}
                    GET_k) []
       = [StartSpan 0 None "redis.command" sopts;
          Finish (Some 0%nat) [WithError (Some "redis nil of another kind")]])
  ∧ (∃ sopts,
       new_calls (DoMulti ex_hook_nil_class ex_client_nil_class
                    {| ctx_span := None |} [GET_k]) []
       = [StartSpan 0 None "redis.command" sopts; Finish (Some 0%nat) []]).
Proof.
  assert ("redis nil of another kind"%string ≠ Nil (Errors := ex_errors_nil_class))
    as Hne by done.
  split; [reflexivity|]. split; [exact Hne|].
  destruct (nil_reply_single_and_batch ex_hook_nil_class ex_client_nil_class
              {| ctx_span := None |} GET_k [GET_k] "redis nil of another kind" []
              eq_refl Hne eq_refl eq_refl eq_refl) as [[s1 H1] [s2 H2]].
  split; [exists s1|exists s2]; [rewrite H1|rewrite H2]; reflexivity.
Defined.

Lemma ex_start_keys_NoDup : NoDup start_keys.
Proof. by apply (bool_decide_unpack _). Defined.

Lemma started_span_tags_witness :
  NoDup start_keys
  ∧ ∃ sopts fopts,
      new_calls (invoke (ex_hook ["127.0.0.1:6379"] []) (ex_client [])
                   {| ctx_span := None |} (CallDo GET_k)) []
      = [StartSpan 0 None "redis.command" sopts; Finish (Some 0%nat) fopts]
      ∧ tags_of sopts !! "component" = Some (VString "rueidis")
      ∧ tags_of sopts !! "span.kind" = Some (VString "client")
      ∧ tags_of sopts !! "db.system" = Some (VString "redis")
      ∧ tags_of sopts !! "addrs" = Some (VString "127.0.0.1:6379, 127.0.0.1:6379")
      ∧ tags_of sopts !! "_dd1.sr.eausr" = None
      ∧ ∀ k, k ∉ start_keys → tags_of sopts !! k = None.
Proof.
  split; [exact ex_start_keys_NoDup|].
  exact (started_span_tags ["127.0.0.1:6379"] [] (ex_client [])
           {| ctx_span := None |} (CallDo GET_k) [] ex_start_keys_NoDup).
Defined.

Lemma invoke_all_spans_closed_witness :
  spans_closed []
  ∧ spans_closed
      (snd (invoke_all (ex_hook [] []) (ex_client [res_err])
              [({| ctx_span := None |}, CallDo GET_k);
               ({| ctx_span := Some 0%nat |}, CallDoMulti [GET_k; PING])] []))
  ∧ length
      (snd (invoke_all (ex_hook [] []) (ex_client [res_err])
              [({| ctx_span := None |}, CallDo GET_k);
               ({| ctx_span := Some 0%nat |}, CallDoMulti [GET_k; PING])] []))
    = 4%nat.
Proof.
  split; [exact spans_closed_nil|].
  destruct (invoke_all_spans_closed (ex_hook [] []) (ex_client [res_err])
              [({| ctx_span := None |}, CallDo GET_k);
               ({| ctx_span := Some 0%nat |}, CallDoMulti [GET_k; PING])] []
              spans_closed_nil) as (H1 & H2 & _).
  split; [exact H1|exact H2].
Defined.

End rueidis_facts.

(** ** Package [grpcsec] *)

Module grpcsec_facts.
Import ddtrace grpcsec.

Section tags.
Context {externals : Externals}.

(** *** Facts about the loop over the normalized headers *)

Lemma set_tags_lookup (span : gmap string TagValue) (m : gmap string string)
    (h : string) (v : string) :
  m !! h = Some v →
  map_fold (λ h v span, SetTag span (metadata_prefix +:+ h) (VString v)) span m
    !! (metadata_prefix +:+ h) = Some (VString v).
Proof.
  revert h v.
  apply (map_fold_weak_ind
           (λ r m, ∀ h v, m !! h = Some v →
                          r !! (metadata_prefix +:+ h) = Some (VString v))).
  - intros h v. by rewrite lookup_empty.
  - intros i x m' r Hi IH h v. unfold SetTag.
    destruct (decide (i = h)) as [->|Hne].
    + rewrite lookup_insert_eq. intros [= ->]. by rewrite lookup_insert_eq.
    + rewrite lookup_insert_ne by done. intros Hh.
      rewrite lookup_insert_ne; [by apply IH|].
      intros Heq. by apply (inj (String.app metadata_prefix)) in Heq.
Qed.

Lemma set_tags_other (span : gmap string TagValue) (m : gmap string string)
    (key : string) :
  (∀ h, is_Some (m !! h) → key ≠ metadata_prefix +:+ h) →
  map_fold (λ h v span, SetTag span (metadata_prefix +:+ h) (VString v)) span m
    !! key = span !! key.
Proof.
  apply (map_fold_weak_ind
           (λ r m, (∀ h, is_Some (m !! h) → key ≠ metadata_prefix +:+ h) →
                   r !! key = span !! key)).
  - done.
  - intros i x m' r Hi IH Hkey. unfold SetTag.
    rewrite lookup_insert_ne.
    + apply IH. intros h Hh. apply Hkey.
      destruct (decide (i = h)) as [->|Hne];
        [by rewrite lookup_insert_eq|by rewrite lookup_insert_ne].
    + intros Heq. apply (Hkey i); [by rewrite lookup_insert_eq|done].
Qed.

Lemma NormalizeHTTPHeaders_Some (md : gmap string (list string)) (h v : string) :
  NormalizeHTTPHeaders md !! h = Some v →
  ∃ k vs, md !! k = Some vs ∧ h = normalize k ∧ v = join vs.
Proof.
  intros H. apply elem_of_list_to_map_2 in H.
  apply list_elem_of_fmap in H as ([k vs] & [= -> ->] & Hin).
  apply elem_of_map_to_list in Hin. eauto.
Qed.

Lemma NormalizeHTTPHeaders_is_Some (md : gmap string (list string)) (k : string) :
  is_Some (md !! k) → is_Some (NormalizeHTTPHeaders md !! normalize k).
Proof.
  intros [vs Hk]. apply not_eq_None_Some. intros Hnone.
  apply not_elem_of_list_to_map_2 in Hnone. apply Hnone.
  apply list_elem_of_fmap. exists (normalize k, join vs). split; [done|].
  apply list_elem_of_fmap. exists (k, vs). split; [done|].
  by apply elem_of_map_to_list.
Qed.

(** *** [SetSecurityEventTags] *)

(** C6: [SetSecurityEventTags] hands no error to its caller. When the step
    that encodes the events fails, one line with the error goes to the log
    and the span keeps what that step left on it; otherwise the log is
    untouched. *)
Theorem SetSecurityEventTags_logs_and_swallows (span : gmap string TagValue)
    (events : list RawMessage) (md : gmap string (list string))
    (log : list string) :
  match SetEventSpanTags span events with
  | (span1, Some err) =>
      setSecurityEventTags span events md = (span1, Some err)
      ∧ SetSecurityEventTags span events md log
        = (span1, log ++ ["appsec: " +:+ ErrorString err])
  | (span1, None) =>
      snd (setSecurityEventTags span events md) = None
      ∧ SetSecurityEventTags span events md log
        = (fst (setSecurityEventTags span events md), log)
  end.
Proof.
  unfold SetSecurityEventTags, setSecurityEventTags.
  by destruct (SetEventSpanTags span events) as [span1 [err|]].
Qed.

(** C7, as the code has it, for every metadata map. When the step that
    encodes the events succeeds, every header of the metadata map has its tag,
    named by the namespace followed by the normalized header name and holding
    the joined values of a header with that normalized name, and every other
    tag of the span is as that step left it. When that step fails, no
    metadata tag is set: the span is the one that step left, tag for tag, and
    the error goes to the log. *)
Theorem metadata_tags_when_events_encode (span span1 : gmap string TagValue)
    (events : list RawMessage) (md : gmap string (list string))
    (log : list string) :
  (SetEventSpanTags span events = (span1, None) →
   snd (SetSecurityEventTags span events md log) = log
   ∧ (∀ k, is_Some (md !! k) →
        ∃ k' vs', md !! k' = Some vs' ∧ normalize k' = normalize k
          ∧ fst (SetSecurityEventTags span events md log)
              !! (metadata_prefix +:+ normalize k) = Some (VString (join vs')))
   ∧ (∀ key, (∀ k, is_Some (md !! k) → key ≠ metadata_prefix +:+ normalize k) →
        fst (SetSecurityEventTags span events md log) !! key = span1 !! key))
  ∧ (∀ err, SetEventSpanTags span events = (span1, Some err) →
       fst (SetSecurityEventTags span events md log) = span1
       ∧ (∀ k, fst (SetSecurityEventTags span events md log)
                 !! (metadata_prefix +:+ normalize k)
               = span1 !! (metadata_prefix +:+ normalize k))
       ∧ snd (SetSecurityEventTags span events md log)
         = log ++ ["appsec: " +:+ ErrorString err]).
Proof.
  split; [|intros err Hev;
           by unfold SetSecurityEventTags, setSecurityEventTags; rewrite Hev].
  intros Hev. unfold SetSecurityEventTags, setSecurityEventTags.
  rewrite Hev. simpl. split; [done|]. split.
  - intros k Hk.
    destruct (NormalizeHTTPHeaders_is_Some md k Hk) as [v Hv].
    destruct (NormalizeHTTPHeaders_Some md _ _ Hv) as (k' & vs' & Hk' & Hn & ->).
    exists k', vs'. split; [done|]. split; [done|].
    by apply set_tags_lookup.
  - intros key Hkey. apply set_tags_other. intros h [v Hv].
    destruct (NormalizeHTTPHeaders_Some md _ _ Hv) as (k' & vs' & Hk' & -> & _).
    apply Hkey. by rewrite Hk'.
Qed.

(** *** What the loop leaves alone, and the order of the loop *)

Lemma prefix_append (a b : string) : String.prefix a (a +:+ b) = true.
Proof.
  induction a as [|c a IH]; [by destruct b|].
  rewrite append_cons. simpl. by destruct (Ascii.ascii_dec c c).
Qed.

(** X17: a tag whose key is outside the namespace "grpc.metadata." is as
    the step that encodes the events left it, whatever the metadata; so is
    a tag of the namespace whose name is that of no normalized header. *)
Theorem tags_outside_metadata_kept (span : gmap string TagValue)
    (events : list RawMessage) (md : gmap string (list string))
    (log : list string) :
  (∀ key, String.prefix metadata_prefix key = false →
     fst (SetSecurityEventTags span events md log) !! key
     = fst (SetEventSpanTags span events) !! key)
  ∧ (∀ h, NormalizeHTTPHeaders md !! h = None →
       fst (SetSecurityEventTags span events md log) !! (metadata_prefix +:+ h)
       = fst (SetEventSpanTags span events) !! (metadata_prefix +:+ h)).
Proof.
  unfold SetSecurityEventTags, setSecurityEventTags.
  destruct (SetEventSpanTags span events) as [span1 [err|]]; simpl; [done|].
  split.
  - intros key Hkey. apply set_tags_other. intros h _ ->.
    by rewrite prefix_append in Hkey.
  - intros h Hh. apply set_tags_other. intros h' [v Hv] Heq.
    apply (inj (String.app metadata_prefix)) in Heq. subst h'.
    by rewrite Hh in Hv.
Qed.

Lemma set_metadata_tags_other (span : gmap string TagValue)
    (entries : list (string * string)) (key : string) :
  (∀ h v, (h, v) ∈ entries → key ≠ metadata_prefix +:+ h) →
  set_metadata_tags span entries !! key = span !! key.
Proof.
  revert span. induction entries as [|[h v] entries IH]; intros span Hkey; [done|].
  unfold set_metadata_tags. simpl.
  fold (set_metadata_tags (SetTag span (metadata_prefix +:+ h) (VString v))
          entries).
  rewrite IH.
  - unfold SetTag. rewrite lookup_insert_ne; [done|].
    intros Heq. by apply (Hkey h v); [left|].
  - intros h' v' Hin. apply (Hkey h' v'). by right.
Qed.

Lemma set_metadata_tags_lookup (span : gmap string TagValue)
    (entries : list (string * string)) (h v : string) :
  NoDup entries.*1 → (h, v) ∈ entries →
  set_metadata_tags span entries !! (metadata_prefix +:+ h) = Some (VString v).
Proof.
  revert span. induction entries as [|[h' v'] entries IH]; intros span Hnd Hin.
  - by apply elem_of_nil in Hin.
  - apply NoDup_cons in Hnd as [Hh' Hnd]. simpl in Hh'.
    unfold set_metadata_tags. simpl.
    fold (set_metadata_tags (SetTag span (metadata_prefix +:+ h') (VString v'))
            entries).
    apply elem_of_cons in Hin as [[= <- <-]|Hin]; [|by apply IH].
    rewrite set_metadata_tags_other.
    + unfold SetTag. by rewrite lookup_insert_eq.
    + intros h2 v2 Hin Heq. apply (inj (String.app metadata_prefix)) in Heq.
      subst h2. apply Hh'. apply list_elem_of_fmap. by exists (h, v2).
Qed.

(** X18: the tags do not depend on the order in which the loop goes through
    the normalized headers: run over them in any order, it leaves the span
    that [SetSecurityEventTags] leaves. *)
Theorem metadata_tags_any_order (span span1 : gmap string TagValue)
    (events : list RawMessage) (md : gmap string (list string))
    (log : list string) (entries : list (string * string)) :
  SetEventSpanTags span events = (span1, None) →
  entries ≡ₚ map_to_list (NormalizeHTTPHeaders md) →
  fst (SetSecurityEventTags span events md log) = set_metadata_tags span1 entries.
Proof.
  intros Hev Hperm. unfold SetSecurityEventTags, setSecurityEventTags.
  rewrite Hev. simpl. apply map_eq. intros key.
  assert (NoDup entries.*1) as Hnd.
  { rewrite Hperm. apply NoDup_fst_map_to_list. }
  destruct (decide (key ∈ (λ hv : string * string, metadata_prefix +:+ hv.1)
                            <$> entries)) as [Hin|Hout].
  - apply list_elem_of_fmap in Hin as ([h v] & -> & Hin). simpl.
    rewrite (set_metadata_tags_lookup _ _ h v) by done.
    apply set_tags_lookup. apply elem_of_map_to_list. by rewrite <- Hperm.
  - rewrite set_metadata_tags_other.
    + apply set_tags_other. intros h [v Hv] ->. apply Hout.
      apply list_elem_of_fmap. exists (h, v). split; [done|].
      rewrite Hperm. by apply elem_of_map_to_list.
    + intros h v Hin ->. apply Hout. apply list_elem_of_fmap. by exists (h, v).
Qed.

End tags.

(** *** The function at the two instances of its parameters *)

(** C7 as the spec words it fails when the step that encodes the events
    fails: the header of the metadata map gets no tag. *)
Lemma metadata_tags_missing_when_events_fail :
  ex_md !! "authorization" = Some ["Bearer x"]
  ∧ SetEventSpanTags (Externals := ex_failing) ∅ []
    = (∅, Some "unexpected error while serializing the appsec event span tag")
  ∧ fst (SetSecurityEventTags (externals := ex_failing) ∅ [] ex_md [])
      !! (metadata_prefix +:+ "authorization") = None.
Proof. split; [by vm_compute|]. split; [reflexivity|by vm_compute]. Qed.

Lemma metadata_tags_when_events_encode_witness :
  SetEventSpanTags (Externals := ex_encoding) ∅ []
  = (<["_dd.appsec.json" := VString "{}"]> ∅, None)
  ∧ (∃ k' vs', ex_md !! k' = Some vs' ∧ k' = "authorization"
      ∧ fst (SetSecurityEventTags (externals := ex_encoding) ∅ [] ex_md [])
          !! (metadata_prefix +:+ "authorization") = Some (VString (ex_join vs')))
  ∧ SetEventSpanTags (Externals := ex_failing) ∅ []
    = (∅, Some "unexpected error while serializing the appsec event span tag")
  ∧ fst (SetSecurityEventTags (externals := ex_failing) ∅ [] ex_md []) = ∅.
Proof.
  split; [reflexivity|]. split; [|split; [reflexivity|]].
  - apply (proj1 (proj2 (proj1 (metadata_tags_when_events_encode
                                  (externals := ex_encoding) ∅ _ [] ex_md [])
                           eq_refl)) "authorization").
    by exists ["Bearer x"].
  - exact (proj1 (proj2 (metadata_tags_when_events_encode
                           (externals := ex_failing) ∅ ∅ [] ex_md [])
                    _ eq_refl)).
Defined.

Example SetSecurityEventTags_authorization :
  SetSecurityEventTags (externals := ex_encoding) ∅ [] ex_md []
  = ({[ "_dd.appsec.json" := VString "{}";
        "grpc.metadata.authorization" := VString "Bearer x" ]}, []).
Proof. by vm_compute. Qed.

Example SetSecurityEventTags_failing :
  SetSecurityEventTags (externals := ex_failing) ∅ [] ex_md []
  = (∅, ["appsec: unexpected error while serializing the appsec event span tag"]).
Proof. by vm_compute. Qed.

Lemma metadata_tags_any_order_witness :
  SetEventSpanTags (Externals := ex_encoding) ∅ []
  = (<["_dd.appsec.json" := VString "{}"]> ∅, None)
  ∧ ex_entries_two
    ≡ₚ map_to_list (NormalizeHTTPHeaders (externals := ex_encoding) ex_md_two)
  ∧ fst (SetSecurityEventTags (externals := ex_encoding) ∅ [] ex_md_two [])
    = set_metadata_tags (<["_dd.appsec.json" := VString "{}"]> ∅) ex_entries_two.
Proof.
  assert (ex_entries_two
          ≡ₚ map_to_list (NormalizeHTTPHeaders (externals := ex_encoding) ex_md_two))
    as Hperm.
  { vm_compute. first [reflexivity|apply perm_swap]. }
  split; [reflexivity|]. split; [exact Hperm|].
  exact (metadata_tags_any_order (externals := ex_encoding) ∅ _ [] ex_md_two []
           ex_entries_two eq_refl Hperm).
Defined.

End grpcsec_facts.
